(** * fragment: member stealing and scope guards

    A shallow embedding of the two headers of the repository:

    - [include/util/steal_member.h]: [StealMember] / [steal_impl] and the
      macro [FRAGMENT_STEAL_MEMBER_DEFINE];
    - the scope-guard header: [scoped_lambda], [conditional_scoped_lambda],
      [on_scope_exit], [on_scope_failure], [on_scope_success],
      [detail::operator+] and the macro [ON_SCOPE_EXIT].

    Objects are records of their data members; a member function that
    mutates [*this] returns the updated object.  Everything a guard does to
    the rest of the program goes through [World.M], a state monad over the
    number of exceptions in flight and the sequence of actions invoked so
    far. *)

From Stdlib Require Import ZArith List Bool String Lia.
From Stdlib Require Import DecimalString DecimalNat Permutation FinFun.
Import ListNotations.

Set Implicit Arguments.

(* ===================================================================== *)
(** * include/util/steal_member.h *)
(* ===================================================================== *)

Module StealMember.

(** The values a C++ expression of the header can denote: data of the
    member types used below, and pointers to data members.  A pointer to a
    data member [&T::m] is a compile-time constant; it designates the slot
    of [m] among the non-static data members of [T]. *)
Inductive value : Type :=
| VInt (n : Z)
| VBool (b : bool)
| VString (s : string)
| VMemPtr (slot : nat).

(** An instance of a class type: the current values of its non-static
    data members, in declaration order. *)
Definition object : Type := list value.

(** [t.*p]: access through a pointer to member. *)
Definition deref (t : object) (p : value) : option value :=
  match p with
  | VMemPtr slot => nth_error t slot
  | _ => None
  end.

(** [std::make_tuple(args...)]: a tuple holding a copy of each argument. *)
Definition make_tuple (args : list value) : list value := args.

(** [friend auto steal_impl(T &t) { return std::make_tuple(Field...); }]
    for the instantiation [StealMember<T, Field...>]. *)
Definition steal_impl (Field : list value) (t : object) : list value :=
  make_tuple Field.

(** [FRAGMENT_STEAL_MEMBER_DEFINE(Object, &Object::m1, ..., &Object::mn)]
    instantiates [StealMember<Object, &Object::m1, ..., &Object::mn>];
    [members] lists the slots of [m1 ... mn]. *)
Definition FRAGMENT_STEAL_MEMBER_DEFINE (members : list nat)
  : object -> list value :=
  steal_impl (map VMemPtr members).

(** [FRAGMENT_STEAL_MEMBER_METHOD] expands to [fragment::steal_impl]. *)
Definition FRAGMENT_STEAL_MEMBER_METHOD := FRAGMENT_STEAL_MEMBER_DEFINE.

(** The current values of the declared members of an instance. *)
Definition member_values (members : list nat) (t : object)
  : list (option value) :=
  map (nth_error t) members.

(** A class with three private members of distinct types,
    [int id_; bool ready_; std::string name_;], all three declared. *)
Definition Widget_members : list nat := [0; 1; 2]%nat.

Definition widget (id : Z) (ready : bool) (name : string) : object :=
  [VInt id; VBool ready; VString name].

End StealMember.

(* ===================================================================== *)
(** * The scope-guard header *)
(* ===================================================================== *)

(** ** The program around a guard *)

Module World.
Section World.
Variable FUNC : Type.

(** What a guard can observe of, and do to, the program it runs in:
    [uncaught] is what [std::uncaught_exceptions()] returns now (an [int];
    the header only stores and compares it), and [invoked] lists the
    closures called through [func_()] so far, oldest first.  A called
    closure is taken to return to the guard and to leave the guard itself
    alone; what it does to the rest of the program is [replay]ed from
    [invoked]. *)
Record world : Type := mkWorld {
  uncaught : Z;
  invoked : list FUNC
}.

Definition M (A : Type) : Type := world -> A * world.

Definition ret (A : Type) (a : A) : M A := fun w => (a, w).

Definition bind (A B : Type) (m : M A) (k : A -> M B) : M B :=
  fun w => k (fst (m w)) (snd (m w)).

Definition eval (A : Type) (m : M A) (w : world) : A := fst (m w).
Definition exec (A : Type) (m : M A) (w : world) : world := snd (m w).

(** [std::uncaught_exceptions()] *)
Definition uncaught_exceptions : M Z := fun w => (uncaught w, w).

(** [func()]: the call of a closure. *)
Definition call (func : FUNC) : M unit :=
  fun w => (tt, {| uncaught := uncaught w; invoked := invoked w ++ [func] |}).

(** The enclosing program throws or catches: the number of exceptions in
    flight becomes [n].  No guard member does this. *)
Definition set_uncaught (n : Z) : M unit :=
  fun w => (tt, {| uncaught := n; invoked := invoked w |}).

End World.

Arguments ret {FUNC A} a.
Arguments uncaught_exceptions {FUNC}.
Arguments set_uncaught {FUNC} n.

Declare Scope guard_scope.
Delimit Scope guard_scope with guard.
Notation "x <- m ;; k" := (bind m (fun x => k))
  (at level 61, m at next level, right associativity) : guard_scope.
Notation "m ;; k" := (bind m (fun _ => k))
  (at level 61, right associativity) : guard_scope.

End World.

Import World.
Local Open Scope guard_scope.

(** ** [template <typename FUNC> class scoped_lambda] *)

Module scoped_lambda.
Section scoped_lambda.
Variable FUNC : Type.

Record t : Type := mk {
  func_ : FUNC;
  cancel_ : bool
}.

(** [scoped_lambda(FUNC &&func)] *)
Definition ctor (func : FUNC) : M FUNC t :=
  ret {| func_ := func; cancel_ := false |}.

(** [void cancel() { cancel_ = true; }] *)
Definition cancel (this : t) : M FUNC t :=
  ret {| func_ := func_ this; cancel_ := true |}.

(** [scoped_lambda(scoped_lambda &&other)]: returns the new object and
    [other] as the constructor leaves it.  For the closures the header is
    used with (lambdas capturing by reference) the moved-from [func_] is
    unchanged. *)
Definition move_ctor (other : t) : M FUNC (t * t) :=
  let this := {| func_ := func_ other; cancel_ := cancel_ other |} in
  other' <- cancel other ;;
  ret (this, other').

(** [~scoped_lambda()] *)
Definition dtor (this : t) : M FUNC unit :=
  if negb (cancel_ this) then call (func_ this) else ret tt.

(** [void call_now() { cancel_ = true; func_(); }] *)
Definition call_now (this : t) : M FUNC t :=
  let this' := {| func_ := func_ this; cancel_ := true |} in
  call (func_ this') ;;
  ret this'.

(** The member functions a caller can apply to a live guard. *)
Inductive op : Type := Cancel | CallNow.

Definition step (o : op) (this : t) : M FUNC t :=
  match o with
  | Cancel => cancel this
  | CallNow => call_now this
  end.

Fixpoint run (ops : list op) (this : t) : M FUNC t :=
  match ops with
  | [] => ret this
  | o :: ops' => this' <- step o this ;; run ops' this'
  end.

Definition is_call_now (o : op) : bool :=
  match o with CallNow => true | Cancel => false end.

Definition is_cancel (o : op) : bool :=
  match o with Cancel => true | CallNow => false end.

(** How often [call_now] occurs in a sequence of member calls. *)
Definition call_nows (ops : list op) : nat :=
  List.length (filter is_call_now ops).

End scoped_lambda.
End scoped_lambda.

(** ** [template <typename FUNC, bool CALL_ON_FAILURE>
       class conditional_scoped_lambda] *)

Module conditional_scoped_lambda.
Section conditional_scoped_lambda.
Variable FUNC : Type.

(** One type per instantiation, as in C++: [t true] is
    [conditional_scoped_lambda<FUNC, true>]. *)
Record t (CALL_ON_FAILURE : bool) : Type := mk {
  func_ : FUNC;
  uncaught_exception_count_ : Z;
  cancel_ : bool
}.

Variable CALL_ON_FAILURE : bool.

(** [conditional_scoped_lambda(FUNC &&func)] *)
Definition ctor (func : FUNC) : M FUNC (t CALL_ON_FAILURE) :=
  n <- uncaught_exceptions ;;
  ret {| func_ := func; uncaught_exception_count_ := n; cancel_ := false |}.

(** [void cancel() noexcept { cancel_ = true; }] *)
Definition cancel (this : t CALL_ON_FAILURE) : M FUNC (t CALL_ON_FAILURE) :=
  ret {| func_ := func_ this;
         uncaught_exception_count_ := uncaught_exception_count_ this;
         cancel_ := true |}.

(** [conditional_scoped_lambda(conditional_scoped_lambda &&other)] *)
Definition move_ctor (other : t CALL_ON_FAILURE) : M FUNC (t CALL_ON_FAILURE * t CALL_ON_FAILURE) :=
  let this : t CALL_ON_FAILURE :=
    {| func_ := func_ other;
       uncaught_exception_count_ := uncaught_exception_count_ other;
       cancel_ := cancel_ other |} in
  other' <- cancel other ;;
  ret (this, other').

(** [bool is_unwinding_due_to_exception() const noexcept] *)
Definition is_unwinding_due_to_exception (this : t CALL_ON_FAILURE) : M FUNC bool :=
  n <- uncaught_exceptions ;;
  ret (n >? uncaught_exception_count_ this)%Z.

(** [~conditional_scoped_lambda()]; [&&] evaluates its right operand only
    when [!cancel_] holds. *)
Definition dtor (this : t CALL_ON_FAILURE) : M FUNC unit :=
  if negb (cancel_ this) then
    unwinding <- is_unwinding_due_to_exception this ;;
    if Bool.eqb unwinding CALL_ON_FAILURE then call (func_ this) else ret tt
  else ret tt.

(** What can happen to a live guard: the only public member function is
    [cancel]; between two calls the program may throw or catch. *)
Inductive op : Type := Cancel | Uncaught (n : Z).

Definition step (o : op) (this : t CALL_ON_FAILURE) : M FUNC (t CALL_ON_FAILURE) :=
  match o with
  | Cancel => cancel this
  | Uncaught n => set_uncaught n ;; ret this
  end.

Fixpoint run (ops : list op) (this : t CALL_ON_FAILURE) : M FUNC (t CALL_ON_FAILURE) :=
  match ops with
  | [] => ret this
  | o :: ops' => this' <- step o this ;; run ops' this'
  end.

Definition is_cancel (o : op) : bool :=
  match o with Cancel => true | Uncaught _ => false end.

(** Whether [cancel] occurs in a sequence of events. *)
Definition cancelled (ops : list op) : bool := existsb is_cancel ops.

(** The number of exceptions in flight after a sequence of events that
    started with [c] of them. *)
Definition uncaught_after (ops : list op) (c : Z) : Z :=
  fold_left (fun c o => match o with Uncaught n => n | Cancel => c end) ops c.

End conditional_scoped_lambda.
End conditional_scoped_lambda.

(** ** The factory functions *)

Section factories.
Variable FUNC : Type.

(** [on_scope_exit(func)]: [return scoped_lambda<FUNC>{...};]
    the returned prvalue initialises the caller's object directly. *)
Definition on_scope_exit (func : FUNC) : M FUNC (scoped_lambda.t FUNC) :=
  scoped_lambda.ctor func.

(** [on_scope_failure(func)] *)
Definition on_scope_failure (func : FUNC)
  : M FUNC (conditional_scoped_lambda.t FUNC true) :=
  conditional_scoped_lambda.ctor true func.

(** [on_scope_success(func)] *)
Definition on_scope_success (func : FUNC)
  : M FUNC (conditional_scoped_lambda.t FUNC false) :=
  conditional_scoped_lambda.ctor false func.

End factories.

Module detail.

(** [enum class ScopeExit {};]: only its value-initialised value
    [ScopeExit()] is ever made, as a tag that selects [operator+]. *)
Inductive ScopeExit : Type := ScopeExit_value.

(** [inline scoped_lambda<Func> operator+(ScopeExit, Func &&fn)] *)
Definition operator_plus (FUNC : Type) (_ : ScopeExit) (fn : FUNC)
  : M FUNC (scoped_lambda.t FUNC) :=
  on_scope_exit fn.

End detail.

(** [ON_SCOPE_EXIT { body }] declares
    [auto exitBlock_<line> = fragment::detail::ScopeExit() + [&]() { body }];
    [body] is the closure written after the macro. *)
Definition ON_SCOPE_EXIT (FUNC : Type) (body : FUNC)
  : M FUNC (scoped_lambda.t FUNC) :=
  detail.operator_plus detail.ScopeExit_value body.

(** ** A guard's life in a scope *)

Section lifetimes.
Variable FUNC : Type.

(** A block that declares an unconditional guard with [make], applies the
    member calls [ops] to it and is left: the guard is destroyed. *)
Definition scoped_lifetime (make : M FUNC (scoped_lambda.t FUNC))
  (ops : list scoped_lambda.op) : M FUNC unit :=
  g <- make ;;
  g' <- scoped_lambda.run ops g ;;
  scoped_lambda.dtor g'.

(** The same for a conditional guard and the events [ops]. *)
Definition conditional_lifetime (CALL_ON_FAILURE : bool)
  (make : M FUNC (conditional_scoped_lambda.t FUNC CALL_ON_FAILURE))
  (ops : list conditional_scoped_lambda.op) : M FUNC unit :=
  g <- make ;;
  g' <- conditional_scoped_lambda.run ops g ;;
  conditional_scoped_lambda.dtor g'.

(** A conditional guard is made and later moved into a second guard; at
    the end of the block the second guard and then the moved-from guard are
    destroyed (reverse order of declaration).  The program has [c_move]
    exceptions in flight at the move and [c_exit] when the guards die. *)
Definition moved_lifetime (CALL_ON_FAILURE : bool)
  (make : M FUNC (conditional_scoped_lambda.t FUNC CALL_ON_FAILURE))
  (c_move c_exit : Z) : M FUNC unit :=
  g1 <- make ;;
  set_uncaught c_move ;;
  p <- conditional_scoped_lambda.move_ctor g1 ;;
  set_uncaught c_exit ;;
  conditional_scoped_lambda.dtor (fst p) ;;
  conditional_scoped_lambda.dtor (snd p).

(** How many closures were invoked between the program states [w] and [w'],
    and whether any was. *)
Definition invocations (w w' : world FUNC) : nat :=
  List.length (invoked w') - List.length (invoked w).

Definition fired (w w' : world FUNC) : bool :=
  (0 <? invocations w w')%nat.

(** The effect of the invoked closures on a program state. *)
Definition replay (state : Type) (run_closure : FUNC -> state -> state)
  (w : world FUNC) (s : state) : state :=
  fold_left (fun s f => run_closure f s) (invoked w) s.

End lifetimes.

(** ** Concrete programs used in the examples *)

(** A program with no exception in flight that has invoked nothing. *)
Definition quiet (FUNC : Type) : world FUNC :=
  {| uncaught := 0; invoked := [] |}.

Arguments quiet {FUNC}.

(** The action of the examples: "increment counter". *)
Definition increment : Z -> Z := Z.succ.

Definition run_closure (f : Z -> Z) (counter : Z) : Z := f counter.

(** ** Several guards in one block *)

Section blocks.
Variable FUNC : Type.

(** A guard whose destructor will call the action. *)
Definition armed (g : scoped_lambda.t FUNC) : bool :=
  negb (scoped_lambda.cancel_ g).

(** The destructors of the given guards run one after the other, the head
    of the list first. *)
Fixpoint destroy_all (gs : list (scoped_lambda.t FUNC)) : M FUNC unit :=
  match gs with
  | [] => ret tt
  | g :: gs' => scoped_lambda.dtor g ;; destroy_all gs'
  end.

(** One [ON_SCOPE_EXIT] statement per element, in order; a guard whose
    flag is set has [cancel()] called on it.  The result lists the guards
    in declaration order. *)
Fixpoint declare_all (decls : list (FUNC * bool))
  : M FUNC (list (scoped_lambda.t FUNC)) :=
  match decls with
  | [] => ret []
  | d :: rest =>
      g <- ON_SCOPE_EXIT (fst d) ;;
      g' <- (if snd d then scoped_lambda.cancel g else ret g) ;;
      gs <- declare_all rest ;;
      ret (g' :: gs)
  end.

(** A block that declares these guards and is left: automatic objects are
    destroyed in the reverse order of their declaration. *)
Definition block (decls : list (FUNC * bool)) : M FUNC unit :=
  gs <- declare_all decls ;;
  destroy_all (rev gs).

(** [auto g1 = std::move(g); auto g2 = std::move(g1); ...], [n] times:
    the guards alive afterwards, in declaration order, [g] itself first. *)
Fixpoint move_chain (n : nat) (g : scoped_lambda.t FUNC)
  : M FUNC (list (scoped_lambda.t FUNC)) :=
  match n with
  | O => ret [g]
  | S n' =>
      p <- scoped_lambda.move_ctor g ;;
      gs <- move_chain n' (fst p) ;;
      ret (snd p :: gs)
  end.

Variable CALL_ON_FAILURE : bool.

(** Whether the destructor of a conditional guard calls the action when
    [c] exceptions are in flight. *)
Definition will_fire (c : Z)
  (g : conditional_scoped_lambda.t FUNC CALL_ON_FAILURE) : bool :=
  negb (conditional_scoped_lambda.cancel_ g)
  && Bool.eqb (c >? conditional_scoped_lambda.uncaught_exception_count_ g)%Z
              CALL_ON_FAILURE.

Fixpoint conditional_destroy_all
  (gs : list (conditional_scoped_lambda.t FUNC CALL_ON_FAILURE))
  : M FUNC unit :=
  match gs with
  | [] => ret tt
  | g :: gs' =>
      conditional_scoped_lambda.dtor g ;; conditional_destroy_all gs'
  end.

Fixpoint conditional_move_chain (n : nat)
  (g : conditional_scoped_lambda.t FUNC CALL_ON_FAILURE)
  : M FUNC (list (conditional_scoped_lambda.t FUNC CALL_ON_FAILURE)) :=
  match n with
  | O => ret [g]
  | S n' =>
      p <- conditional_scoped_lambda.move_ctor g ;;
      gs <- conditional_move_chain n' (fst p) ;;
      ret (snd p :: gs)
  end.

End blocks.

(** The events of a conditional guard's life seen from a program that has
    [k] more exceptions in flight throughout. *)
Definition shift_event (k : Z) (o : conditional_scoped_lambda.op)
  : conditional_scoped_lambda.op :=
  match o with
  | conditional_scoped_lambda.Cancel => conditional_scoped_lambda.Cancel
  | conditional_scoped_lambda.Uncaught n =>
      conditional_scoped_lambda.Uncaught (n + k)
  end.

(** ** The macros that name the guard of [ON_SCOPE_EXIT] *)

Module Preprocessor.

(** The preprocessing tokens these macros handle. *)
Inductive token : Type :=
| Identifier (name : string)
| Line
| Number (n : nat).

(** A line number as the preprocessor writes it: decimal digits. *)
Definition decimal (n : nat) : string :=
  NilEmpty.string_of_uint (Nat.to_uint n).

(** [Line] is the predefined macro [__LINE__]. *)
Definition spelling (tok : token) : string :=
  match tok with
  | Identifier name => name
  | Line => "__LINE__"
  | Number n => decimal n
  end.

(** Macro expansion of a token on source line [line]. *)
Definition expand (line : nat) (tok : token) : token :=
  match tok with
  | Line => Number line
  | _ => tok
  end.

(** [#define __SCOPE_EXIT_CONCATENATE_IMPL(s1, s2) s1##s2]: the operands
    of [##] are substituted without macro expansion and their spellings
    pasted; an identifier followed by an identifier or a number pastes to an
    identifier. *)
Definition __SCOPE_EXIT_CONCATENATE_IMPL (s1 s2 : token) : token :=
  Identifier (spelling s1 ++ spelling s2).

(** [#define __SCOPE_EXIT_CONCATENATE(s1, s2)
       __SCOPE_EXIT_CONCATENATE_IMPL(s1, s2)]: here the parameters are not
    operands of [##], so the arguments are macro-expanded first. *)
Definition __SCOPE_EXIT_CONCATENATE (line : nat) (s1 s2 : token) : token :=
  __SCOPE_EXIT_CONCATENATE_IMPL (expand line s1) (expand line s2).

(** The variable [ON_SCOPE_EXIT] declares on source line [line]:
    [__SCOPE_EXIT_CONCATENATE(exitBlock_, __LINE__)]. *)
Definition ON_SCOPE_EXIT_variable (line : nat) : token :=
  __SCOPE_EXIT_CONCATENATE line (Identifier "exitBlock_") Line.

End Preprocessor.

(** ** Closures that may throw *)

Module Throwing.
Section Throwing.
Variable FUNC : Type.

(** [noexcept(std::declval<FUNC>()())]: whether a call of a closure of this
    type is declared not to throw. *)
Variable FUNC_noexcept : bool.

(** Whether the body of a closure raises an exception. *)
Variable throws : FUNC -> bool.

(** How a function call ends. *)
Inductive outcome (A : Type) : Type :=
| Returned (a : A)
| Thrown
| Terminated.

Arguments Thrown {A}.
Arguments Terminated {A}.

Definition E (A : Type) : Type := world FUNC -> outcome A * world FUNC.

(** [func()]: a closure that raises leaves by the exception, which is then
    in flight, unless its call operator is [noexcept]: then
    [std::terminate] is called. *)
Definition call (func : FUNC) : E unit :=
  fun w =>
    if throws func then
      if FUNC_noexcept then
        (Terminated,
         {| uncaught := uncaught w; invoked := invoked w ++ [func] |})
      else
        (Thrown,
         {| uncaught := uncaught w + 1; invoked := invoked w ++ [func] |})
    else
      (Returned tt,
       {| uncaught := uncaught w; invoked := invoked w ++ [func] |}).

(** A function body under the exception specification [noexcept(spec)]:
    an exception that would leave a [noexcept(true)] function calls
    [std::terminate]. *)
Definition noexcept (spec : bool) (A : Type) (body : E A) : E A :=
  fun w =>
    match body w with
    | (Thrown, w') => if spec then (Terminated, w') else (Thrown, w')
    | r => r
    end.

(** [void call_now() { cancel_ = true; func_(); }]: the guard as the call
    leaves it, and how the call ends. *)
Definition call_now (this : scoped_lambda.t FUNC)
  : world FUNC -> scoped_lambda.t FUNC * (outcome unit * world FUNC) :=
  fun w =>
    let this' := {| scoped_lambda.func_ := scoped_lambda.func_ this;
                    scoped_lambda.cancel_ := true |} in
    (this', call (scoped_lambda.func_ this') w).

(** [~scoped_lambda()]: a destructor without an exception specification
    is [noexcept(true)] (the closure member's own destructor does not
    throw). *)
Definition dtor (this : scoped_lambda.t FUNC) : E unit :=
  noexcept true
    (fun w =>
       if negb (scoped_lambda.cancel_ this)
       then call (scoped_lambda.func_ this) w
       else (Returned tt, w)).

(** [~conditional_scoped_lambda() noexcept(CALL_ON_FAILURE ||
       noexcept(std::declval<FUNC>()()))] *)
Definition conditional_dtor (CALL_ON_FAILURE : bool)
  (this : conditional_scoped_lambda.t FUNC CALL_ON_FAILURE) : E unit :=
  noexcept (CALL_ON_FAILURE || FUNC_noexcept)
    (fun w =>
       if negb (conditional_scoped_lambda.cancel_ this) then
         if Bool.eqb
              (eval (conditional_scoped_lambda.is_unwinding_due_to_exception
                       this) w)
              CALL_ON_FAILURE
         then call (conditional_scoped_lambda.func_ this) w
         else (Returned tt, w)
       else (Returned tt, w)).

End Throwing.

Arguments Thrown {A}.
Arguments Terminated {A}.

End Throwing.

(** A closure type for the examples: the closure named ["boom"] raises. *)
Definition boom_throws (f : string) : bool := String.eqb f "boom".

(* ===================================================================== *)
(** * Facts about [steal_impl] *)
(* ===================================================================== *)

Section StealMember_facts.
Import StealMember.

(** The tuple does not depend on the instance at all. *)
Lemma steal_impl_ignores_instance (Field : list value) (t t' : object) :
  steal_impl Field t = steal_impl Field t'.
Proof. reflexivity. Qed.

Example steal_widget :
  FRAGMENT_STEAL_MEMBER_METHOD Widget_members (widget 7 true "gear")
  = [VMemPtr 0; VMemPtr 1; VMemPtr 2].
Proof. reflexivity. Qed.

Example widget_values :
  member_values Widget_members (widget 7 true "gear")
  = [Some (VInt 7); Some (VBool true); Some (VString "gear")].
Proof. reflexivity. Qed.

(** C1, as stated, fails: for a type with three declared members of
    distinct types, the tuple returned for an instance is not the tuple of
    the current values of those members; its elements are the three member
    pointers. *)
Lemma steal_impl_not_member_values :
  map Some (FRAGMENT_STEAL_MEMBER_METHOD Widget_members (widget 7 true "gear"))
  <> member_values Widget_members (widget 7 true "gear").
Proof. cbv. discriminate. Qed.

(** C1, amended: the member-lookup entry point returns the tuple of the
    declared member pointers, the same tuple for every instance whatever
    its member values; reading the instance through each element of the
    tuple ([t.*p]) gives the current values of the declared members. *)
Theorem steal_impl_returns_member_pointers (members : list nat) (t : object) :
  FRAGMENT_STEAL_MEMBER_METHOD members t = map VMemPtr members
  /\ (forall t' : object,
        FRAGMENT_STEAL_MEMBER_METHOD members t'
        = FRAGMENT_STEAL_MEMBER_METHOD members t)
  /\ map (deref t) (FRAGMENT_STEAL_MEMBER_METHOD members t)
     = member_values members t.
Proof.
  unfold FRAGMENT_STEAL_MEMBER_METHOD, FRAGMENT_STEAL_MEMBER_DEFINE.
  unfold steal_impl, make_tuple, member_values.
  repeat split.
  rewrite map_map. apply map_ext. intros slot. reflexivity.
Qed.

End StealMember_facts.

(* ===================================================================== *)
(** * Facts about the scope guards *)
(* ===================================================================== *)

(** ** The monad *)

Section World_facts.
Variable FUNC : Type.

Lemma world_eta (w : world FUNC) :
  {| uncaught := uncaught w; invoked := invoked w |} = w.
Proof. destruct w; reflexivity. Qed.

Lemma exec_bind (A B : Type) (m : M FUNC A) (k : A -> M FUNC B) w :
  exec (bind m k) w = exec (k (eval m w)) (exec m w).
Proof. reflexivity. Qed.

Lemma eval_bind (A B : Type) (m : M FUNC A) (k : A -> M FUNC B) w :
  eval (bind m k) w = eval (k (eval m w)) (exec m w).
Proof. reflexivity. Qed.

Lemma exec_call (f : FUNC) w :
  exec (call f) w = {| uncaught := uncaught w; invoked := invoked w ++ [f] |}.
Proof. reflexivity. Qed.

(** A list is never its own proper extension. *)
Lemma app_one_neq (l : list FUNC) (f : FUNC) : l <> l ++ [f].
Proof.
  intros H. apply (f_equal (@List.length FUNC)) in H.
  rewrite length_app in H. simpl in H. lia.
Qed.

End World_facts.

(** ** [scoped_lambda] *)

Section scoped_lambda_facts.
Import scoped_lambda.
Variable FUNC : Type.

(** The destructor calls [func_] when [cancel_] is unset, and does nothing
    otherwise. *)
Lemma scoped_dtor_spec (g : t FUNC) w :
  exec (dtor g) w
  = {| uncaught := uncaught w;
       invoked := invoked w ++ (if cancel_ g then [] else [func_ g]) |}.
Proof.
  unfold dtor. destruct (cancel_ g); simpl.
  - unfold exec, ret. simpl. rewrite app_nil_r. symmetry. apply world_eta.
  - reflexivity.
Qed.

Lemma scoped_dtor_cancelled (g : t FUNC) w :
  cancel_ g = true -> exec (dtor g) w = w.
Proof.
  intros Hc. rewrite scoped_dtor_spec, Hc, app_nil_r. apply world_eta.
Qed.

(** After any member call the guard is cancelled. *)
Lemma scoped_step_spec (o : op) (g : t FUNC) w :
  step o g w
  = ({| func_ := func_ g; cancel_ := true |},
     {| uncaught := uncaught w;
        invoked := invoked w ++ repeat (func_ g) (call_nows [o]) |}).
Proof.
  destruct o; unfold step, cancel, call_now, bind, ret, call, call_nows; simpl.
  - rewrite app_nil_r, world_eta. reflexivity.
  - reflexivity.
Qed.

Lemma call_nows_cons (o : op) (ops : list op) :
  call_nows (o :: ops) = (call_nows [o] + call_nows ops)%nat.
Proof. unfold call_nows. simpl. destruct (is_call_now o); reflexivity. Qed.

(** A sequence of member calls leaves the closure in place, sets [cancel_]
    as soon as there is one call, and invokes the closure once per
    [call_now]. *)
Lemma scoped_run_spec (ops : list op) : forall (g : t FUNC) w,
  run ops g w
  = ({| func_ := func_ g;
        cancel_ := match ops with [] => cancel_ g | _ :: _ => true end |},
     {| uncaught := uncaught w;
        invoked := invoked w ++ repeat (func_ g) (call_nows ops) |}).
Proof.
  induction ops as [|o ops IH]; intros g w.
  - simpl. unfold ret. rewrite app_nil_r, world_eta. destruct g; reflexivity.
  - cbn [run]. unfold bind. rewrite scoped_step_spec. cbn [fst snd].
    rewrite IH. cbn [func_ cancel_ uncaught invoked].
    rewrite (call_nows_cons o ops), repeat_app, app_assoc.
    destruct ops; reflexivity.
Qed.

(** The whole life of a guard made by [on_scope_exit]. *)
Lemma scoped_lifetime_spec (f : FUNC) (ops : list op) w :
  exec (scoped_lifetime (on_scope_exit f) ops) w
  = {| uncaught := uncaught w;
       invoked := invoked w ++ repeat f (call_nows ops)
                    ++ (match ops with [] => [f] | _ :: _ => [] end) |}.
Proof.
  unfold scoped_lifetime. rewrite exec_bind.
  unfold on_scope_exit, ctor. unfold eval at 1, exec at 2, ret at 1 2.
  cbn [fst snd]. rewrite exec_bind. unfold eval, exec at 2.
  rewrite scoped_run_spec. cbn [fst snd]. rewrite scoped_dtor_spec.
  cbn [func_ cancel_ uncaught invoked]. rewrite <- app_assoc.
  destruct ops; reflexivity.
Qed.

End scoped_lambda_facts.

(** ** [conditional_scoped_lambda] *)

Section conditional_scoped_lambda_facts.
Import conditional_scoped_lambda.
Variable FUNC : Type.
Variable CALL_ON_FAILURE : bool.

(** The destructor's decision, in one expression. *)
Lemma conditional_dtor_spec (g : t FUNC CALL_ON_FAILURE) w :
  exec (dtor g) w
  = {| uncaught := uncaught w;
       invoked := invoked w ++
         (if negb (cancel_ g)
             && Bool.eqb (uncaught w >? uncaught_exception_count_ g)%Z
                         CALL_ON_FAILURE
          then [func_ g] else []) |}.
Proof.
  unfold dtor. destruct (cancel_ g); cbn [negb andb].
  - unfold exec, ret. cbn [snd]. rewrite app_nil_r. symmetry. apply world_eta.
  - rewrite exec_bind.
    unfold is_unwinding_due_to_exception, uncaught_exceptions.
    unfold eval, exec at 2, bind, ret. cbn [fst snd].
    destruct (Bool.eqb _ CALL_ON_FAILURE).
    + reflexivity.
    + unfold exec. cbn [snd]. rewrite app_nil_r. symmetry. apply world_eta.
Qed.

Lemma conditional_dtor_cancelled (g : t FUNC CALL_ON_FAILURE) w :
  cancel_ g = true -> exec (dtor g) w = w.
Proof.
  intros Hc. rewrite conditional_dtor_spec, Hc. cbn [negb andb].
  rewrite app_nil_r. apply world_eta.
Qed.

(** Events never invoke the closure and never touch the recorded count. *)
Lemma conditional_run_spec (ops : list op) :
  forall (g : t FUNC CALL_ON_FAILURE) w,
  run ops g w
  = ({| func_ := func_ g;
        uncaught_exception_count_ := uncaught_exception_count_ g;
        cancel_ := cancel_ g || cancelled ops |},
     {| uncaught := uncaught_after ops (uncaught w);
        invoked := invoked w |}).
Proof.
  induction ops as [|o ops IH]; intros g w.
  - cbn. unfold ret. rewrite orb_false_r, world_eta. destruct g; reflexivity.
  - cbn [run]. unfold bind. destruct o as [|n].
    + cbn [step]. unfold cancel, ret. cbn [fst snd]. rewrite IH.
      cbn [func_ uncaught_exception_count_ cancel_].
      unfold cancelled. simpl. rewrite orb_true_r. reflexivity.
    + cbn [step]. unfold set_uncaught, bind, ret. cbn [fst snd]. rewrite IH.
      reflexivity.
Qed.

(** The whole life of a conditional guard made at [w]. *)
Lemma conditional_lifetime_spec (f : FUNC) (ops : list op) w :
  exec (conditional_lifetime (ctor CALL_ON_FAILURE f) ops) w
  = {| uncaught := uncaught_after ops (uncaught w);
       invoked := invoked w ++
         (if negb (cancelled ops)
             && Bool.eqb (uncaught_after ops (uncaught w) >? uncaught w)%Z
                         CALL_ON_FAILURE
          then [f] else []) |}.
Proof.
  unfold conditional_lifetime. rewrite exec_bind.
  unfold ctor, uncaught_exceptions.
  unfold eval at 1, exec at 2, bind at 2 3, ret at 1 2. cbn [fst snd].
  rewrite exec_bind. unfold eval, exec at 2.
  rewrite conditional_run_spec. cbn [fst snd]. rewrite conditional_dtor_spec.
  reflexivity.
Qed.

End conditional_scoped_lambda_facts.

(** ** The spec's scenario: the action is "increment counter" *)

Example counter_after_normal_exit :
  replay run_closure
    (exec (scoped_lifetime (on_scope_exit increment) []) quiet) 0%Z = 1%Z.
Proof. reflexivity. Qed.

Example counter_after_cancel :
  replay run_closure
    (exec (scoped_lifetime (on_scope_exit increment) [scoped_lambda.Cancel])
          quiet) 0%Z = 0%Z.
Proof. reflexivity. Qed.

Example counter_failure_guard_on_unwind :
  replay run_closure
    (exec (conditional_lifetime (on_scope_failure increment)
             [conditional_scoped_lambda.Uncaught 1]) quiet) 0%Z = 1%Z.
Proof. reflexivity. Qed.

Example counter_success_guard_on_unwind :
  replay run_closure
    (exec (conditional_lifetime (on_scope_success increment)
             [conditional_scoped_lambda.Uncaught 1]) quiet) 0%Z = 0%Z.
Proof. reflexivity. Qed.

(** ** Invocation counts over a guard's life (C2) *)

(** C2, as stated, fails: an unconditional guard on which [call_now] is
    called twice invokes its action twice (and its destructor adds none). *)
Lemma call_now_twice_invokes_twice :
  ~ (invocations quiet
       (exec (scoped_lifetime (on_scope_exit "cleanup"%string)
                [scoped_lambda.CallNow; scoped_lambda.CallNow]) quiet)
     <= 1)%nat.
Proof. vm_compute. lia. Qed.

Lemma invocations_app (FUNC : Type) (w : world FUNC) (u : Z) (l : list FUNC) :
  invocations w {| uncaught := u; invoked := invoked w ++ l |} = List.length l.
Proof. unfold invocations. cbn [invoked]. rewrite length_app. lia. Qed.

(** C2, amended.  For every unconditional guard, in whatever state its
    life starts, and every sequence of [cancel] and [call_now] calls
    followed by destruction: the member calls invoke the action once per
    [call_now], and the destructor invokes it [d] further times, where [d]
    is at most one and is zero once [cancel] or [call_now] has been called
    (or if the guard started cancelled).  So at most one of the destructor
    path and [call_now] ever invokes the action, and the action is invoked
    at most once in all when [call_now] is called at most once; in general
    at most [max 1 (number of call_now calls)] times.  The same is said
    again for the guard [on_scope_exit f] makes.  A failure-only or
    success-only guard, which has no [call_now], invokes its action at most
    once whatever happens to it: never before its destruction, and at
    destruction exactly when it is not cancelled and the count test
    agrees. *)
Theorem guard_invocations (FUNC : Type) (f : FUNC) (w : world FUNC) :
  (forall (g : scoped_lambda.t FUNC) (ops : list scoped_lambda.op),
     let before_exit := scoped_lambda.run ops g w in
     invoked (snd before_exit)
     = invoked w ++ repeat (scoped_lambda.func_ g) (scoped_lambda.call_nows ops)
     /\ exists d : nat,
          invoked (exec (scoped_lambda.dtor (fst before_exit))
                        (snd before_exit))
          = invoked (snd before_exit) ++ repeat (scoped_lambda.func_ g) d
          /\ d = (if scoped_lambda.cancel_ g then 0%nat
                  else match ops with [] => 1%nat | _ :: _ => 0%nat end)
          /\ (d <= 1)%nat
          /\ (ops <> [] -> d = 0%nat)
          /\ (scoped_lambda.cancel_ g = true -> d = 0%nat)
          /\ (d = 0%nat \/ scoped_lambda.call_nows ops = 0%nat)
          /\ invocations w
               (exec (g' <- scoped_lambda.run ops g ;; scoped_lambda.dtor g') w)
             = (scoped_lambda.call_nows ops + d)%nat
          /\ (invocations w
                (exec (g' <- scoped_lambda.run ops g ;; scoped_lambda.dtor g')
                      w)
              <= Nat.max 1 (scoped_lambda.call_nows ops))%nat)
  /\ (forall ops : list scoped_lambda.op,
     let before_exit :=
       (g <- on_scope_exit f ;; scoped_lambda.run ops g) w in
     invoked (snd before_exit)
     = invoked w ++ repeat f (scoped_lambda.call_nows ops)
     /\ exists d : nat,
          invoked (exec (scoped_lambda.dtor (fst before_exit))
                        (snd before_exit))
          = invoked (snd before_exit) ++ repeat f d
          /\ (d <= 1)%nat
          /\ (ops <> [] -> d = 0%nat)
          /\ (ops = [] -> d = 1%nat)
          /\ (d = 0%nat \/ scoped_lambda.call_nows ops = 0%nat)
          /\ invocations w (exec (scoped_lifetime (on_scope_exit f) ops) w)
             = (scoped_lambda.call_nows ops + d)%nat
          /\ (invocations w (exec (scoped_lifetime (on_scope_exit f) ops) w)
              <= Nat.max 1 (scoped_lambda.call_nows ops))%nat)
  /\ (forall (CALL_ON_FAILURE : bool)
             (gc : conditional_scoped_lambda.t FUNC CALL_ON_FAILURE)
             (ops : list conditional_scoped_lambda.op),
        invoked (exec (conditional_scoped_lambda.run ops gc) w) = invoked w
        /\ invoked
             (exec (g' <- conditional_scoped_lambda.run ops gc ;;
                    conditional_scoped_lambda.dtor g') w)
           = invoked w
             ++ (if negb (conditional_scoped_lambda.cancel_ gc
                          || conditional_scoped_lambda.cancelled ops)
                    && Bool.eqb
                         (conditional_scoped_lambda.uncaught_after ops
                            (uncaught w)
                          >? conditional_scoped_lambda.uncaught_exception_count_
                               gc)%Z
                         CALL_ON_FAILURE
                 then [conditional_scoped_lambda.func_ gc] else [])
        /\ (invocations w
              (exec (g' <- conditional_scoped_lambda.run ops gc ;;
                     conditional_scoped_lambda.dtor g') w)
            <= 1)%nat)
  /\ (forall ops : list conditional_scoped_lambda.op,
        exists df ds : nat,
          (df <= 1)%nat /\ (ds <= 1)%nat
          /\ invoked (exec (conditional_lifetime (on_scope_failure f) ops) w)
             = invoked w ++ repeat f df
          /\ invoked (exec (conditional_lifetime (on_scope_success f) ops) w)
             = invoked w ++ repeat f ds).
Proof.
  split; [|split; [|split]].
  - intros g ops before_exit. subst before_exit.
    rewrite exec_bind. unfold eval, exec at 3 5.
    rewrite scoped_run_spec. cbn [fst snd invoked scoped_lambda.func_].
    split; [reflexivity|].
    exists (if scoped_lambda.cancel_ g then 0%nat
            else match ops with [] => 1%nat | _ :: _ => 0%nat end).
    rewrite scoped_dtor_spec.
    cbn [scoped_lambda.func_ scoped_lambda.cancel_ invoked uncaught].
    rewrite <- app_assoc, invocations_app, length_app, repeat_length.
    destruct ops as [|o ops], (scoped_lambda.cancel_ g);
      cbn [repeat List.length];
      repeat split; auto; try congruence; try discriminate;
      try apply app_assoc; lia.
  - intros ops before_exit. rewrite scoped_lifetime_spec.
    assert (Hb : before_exit
                 = scoped_lambda.run ops
                     {| scoped_lambda.func_ := f;
                        scoped_lambda.cancel_ := false |} w)
      by reflexivity.
    rewrite Hb, scoped_run_spec. clear Hb before_exit.
    cbn [fst snd invoked scoped_lambda.func_].
    split; [reflexivity|].
    exists (match ops with [] => 1%nat | _ :: _ => 0%nat end).
    rewrite scoped_dtor_spec.
    cbn [scoped_lambda.func_ scoped_lambda.cancel_ invoked].
    rewrite invocations_app, length_app, repeat_length.
    destruct ops as [|o ops]; cbn [repeat List.length];
      repeat split; auto; try congruence; try discriminate; lia.
  - intros c gc ops.
    assert (He : exec (conditional_scoped_lambda.run ops gc) w
                 = snd (conditional_scoped_lambda.run ops gc w))
      by reflexivity.
    assert (Hv : eval (conditional_scoped_lambda.run ops gc) w
                 = fst (conditional_scoped_lambda.run ops gc w))
      by reflexivity.
    rewrite conditional_run_spec in He, Hv. cbn [fst snd] in He, Hv.
    rewrite exec_bind, Hv, He. cbn [invoked].
    split; [reflexivity|].
    rewrite conditional_dtor_spec.
    cbn [conditional_scoped_lambda.func_ conditional_scoped_lambda.cancel_
         conditional_scoped_lambda.uncaught_exception_count_ invoked uncaught].
    split; [reflexivity|].
    rewrite invocations_app. destruct (_ && _); cbn; lia.
  - intros ops. unfold on_scope_failure, on_scope_success.
    rewrite !conditional_lifetime_spec. cbn [invoked].
    set (bf := _ && Bool.eqb _ true). set (bs := _ && Bool.eqb _ false).
    exists (if bf then 1%nat else 0%nat), (if bs then 1%nat else 0%nat).
    destruct bf, bs; repeat split; auto.
Qed.

(** ** The failure-only guard (C3) *)

(** C3.  [on_scope_failure f] records the number of exceptions in flight at
    construction and is not cancelled.  A failure-only guard that is not
    cancelled invokes its action at destruction if and only if the number
    of exceptions in flight is then strictly greater than the recorded one;
    otherwise, in particular when the count is unchanged, the destructor
    does nothing. *)
Theorem on_scope_failure_fires_iff_count_increased
  (FUNC : Type) (f : FUNC) (w0 : world FUNC)
  (g : conditional_scoped_lambda.t FUNC true) (w : world FUNC) :
  conditional_scoped_lambda.cancel_ g = false ->
  (on_scope_failure f w0
   = ({| conditional_scoped_lambda.func_ := f;
         conditional_scoped_lambda.uncaught_exception_count_ := uncaught w0;
         conditional_scoped_lambda.cancel_ := false |}, w0))
  /\ (invoked (exec (conditional_scoped_lambda.dtor g) w)
      = invoked w ++ [conditional_scoped_lambda.func_ g]
      <-> (uncaught w > conditional_scoped_lambda.uncaught_exception_count_ g)%Z)
  /\ (exec (conditional_scoped_lambda.dtor g) w = w
      <-> (uncaught w <= conditional_scoped_lambda.uncaught_exception_count_ g)%Z)
  /\ (uncaught w = conditional_scoped_lambda.uncaught_exception_count_ g ->
      invocations w (exec (conditional_scoped_lambda.dtor g) w) = 0%nat).
Proof.
  intros Hc. split; [reflexivity|].
  rewrite conditional_dtor_spec, Hc. cbn [negb andb invoked].
  destruct (Z.gtb_spec (uncaught w)
              (conditional_scoped_lambda.uncaught_exception_count_ g))
    as [Hgt|Hle]; cbn [Bool.eqb].
  - repeat split; intros H; try lia.
    exfalso. apply (f_equal (@invoked FUNC)) in H. cbn [invoked] in H.
    symmetry in H. revert H. apply app_one_neq.
  - rewrite app_nil_r, world_eta. repeat split; intros H; try lia.
    + exfalso. revert H. apply app_one_neq.
    + unfold invocations. lia.
Qed.

Lemma on_scope_failure_fires_iff_count_increased_witness :
  conditional_scoped_lambda.cancel_
    (eval (on_scope_failure "rollback"%string) quiet) = false
  /\ invoked (exec (conditional_scoped_lambda.dtor
                      (eval (on_scope_failure "rollback"%string) quiet))
                   {| uncaught := 1; invoked := [] |})
     = ["rollback"%string].
Proof.
  split; [reflexivity|].
  apply (on_scope_failure_fires_iff_count_increased
           "rollback"%string quiet
           (eval (on_scope_failure "rollback"%string) quiet)
           {| uncaught := 1; invoked := [] |} eq_refl).
  simpl. lia.
Defined.

(** ** Failure-only against success-only (C4) *)

(** C4, as stated, fails: with identical stimuli that include a call of
    [cancel], neither the failure-only nor the success-only guard invokes
    its action, so it is not the case that exactly one of them does. *)
Lemma cancelled_pair_neither_fires :
  xorb
    (fired quiet
       (exec (conditional_lifetime (on_scope_failure "undo"%string)
                [conditional_scoped_lambda.Cancel;
                 conditional_scoped_lambda.Uncaught 1]) quiet))
    (fired quiet
       (exec (conditional_lifetime (on_scope_success "undo"%string)
                [conditional_scoped_lambda.Cancel;
                 conditional_scoped_lambda.Uncaught 1]) quiet))
  <> true.
Proof. vm_compute. discriminate. Qed.

Lemma fired_app (FUNC : Type) (w : world FUNC) (u : Z) (b : bool) (f : FUNC) :
  fired w {| uncaught := u;
             invoked := invoked w ++ (if b then [f] else []) |} = b.
Proof.
  unfold fired. rewrite invocations_app. destruct b; reflexivity.
Qed.

(** C4, amended.  A failure-only and a success-only guard are made with the
    same action in the same program state and see the same events.  If
    [cancel] is not among the events, exactly one of the two invokes the
    action at destruction: the failure-only guard when the number of
    exceptions in flight at destruction exceeds the one at construction,
    the success-only guard otherwise.  If [cancel] is among the events,
    neither invokes it. *)
Theorem failure_success_complementary
  (FUNC : Type) (f : FUNC) (ops : list conditional_scoped_lambda.op)
  (w : world FUNC) :
  let unwinding :=
    (conditional_scoped_lambda.uncaught_after ops (uncaught w) >? uncaught w)%Z
  in
  let wf := exec (conditional_lifetime (on_scope_failure f) ops) w in
  let ws := exec (conditional_lifetime (on_scope_success f) ops) w in
  fired w wf = negb (conditional_scoped_lambda.cancelled ops) && unwinding
  /\ fired w ws
     = negb (conditional_scoped_lambda.cancelled ops) && negb unwinding
  /\ xorb (fired w wf) (fired w ws)
     = negb (conditional_scoped_lambda.cancelled ops)
  /\ invoked wf = invoked w ++ (if fired w wf then [f] else [])
  /\ invoked ws = invoked w ++ (if fired w ws then [f] else []).
Proof.
  intros unwinding wf ws. subst wf ws.
  unfold on_scope_failure, on_scope_success.
  rewrite !conditional_lifetime_spec, !fired_app. fold unwinding.
  cbn [invoked].
  destruct (conditional_scoped_lambda.cancelled ops), unwinding;
    repeat split; reflexivity.
Qed.

(** ** The unconditional guard (C5, C6, C9) *)

(** C5, as stated, fails in its second half: [cancel] was called before
    destruction, and yet the action is invoked, by the [call_now] that
    follows the [cancel]. *)
Lemma cancel_then_call_now_invokes :
  ~ (In scoped_lambda.Cancel [scoped_lambda.Cancel; scoped_lambda.CallNow] ->
     invocations quiet
       (exec (scoped_lifetime (on_scope_exit "cleanup"%string)
                [scoped_lambda.Cancel; scoped_lambda.CallNow]) quiet)
     = 0%nat).
Proof.
  intros H. specialize (H (or_introl eq_refl)). vm_compute in H. discriminate.
Qed.

Lemma call_nows_zero_cases (ops : list scoped_lambda.op) :
  scoped_lambda.call_nows ops = 0%nat ->
  existsb scoped_lambda.is_cancel ops
  = match ops with [] => false | _ :: _ => true end.
Proof.
  destruct ops as [|o ops]; [reflexivity|].
  destruct o; [reflexivity|]. unfold scoped_lambda.call_nows. simpl. lia.
Qed.

(** C5, amended.  For an unconditional guard made by [on_scope_exit f] on
    which [call_now] is never called: if [cancel] is never called either,
    destruction invokes [f] exactly once; if [cancel] was called before
    destruction, [f] is never invoked. *)
Theorem on_scope_exit_without_call_now
  (FUNC : Type) (f : FUNC) (ops : list scoped_lambda.op) (w : world FUNC) :
  scoped_lambda.call_nows ops = 0%nat ->
  exec (scoped_lifetime (on_scope_exit f) ops) w
  = {| uncaught := uncaught w;
       invoked := invoked w ++
         (if existsb scoped_lambda.is_cancel ops then [] else [f]) |}
  /\ invocations w (exec (scoped_lifetime (on_scope_exit f) ops) w)
     = (if existsb scoped_lambda.is_cancel ops then 0 else 1)%nat.
Proof.
  intros Hn. rewrite scoped_lifetime_spec, invocations_app.
  rewrite (call_nows_zero_cases ops Hn), Hn. cbn [repeat app].
  destruct ops; split; reflexivity.
Qed.

Lemma on_scope_exit_without_call_now_witness :
  scoped_lambda.call_nows [scoped_lambda.Cancel] = 0%nat
  /\ exec (scoped_lifetime (on_scope_exit "cleanup"%string)
             [scoped_lambda.Cancel]) quiet
     = quiet.
Proof.
  split; [reflexivity|].
  apply (on_scope_exit_without_call_now
           "cleanup"%string [scoped_lambda.Cancel] quiet eq_refl).
Defined.

(** C6.  On an unconditional guard that is armed ([cancel_] unset),
    [call_now] invokes the action at once, exactly once, and the later
    destruction of the guard, in whatever program state, invokes nothing. *)
Theorem call_now_then_destruction
  (FUNC : Type) (g : scoped_lambda.t FUNC) (w w_exit : world FUNC) :
  scoped_lambda.cancel_ g = false ->
  exec (scoped_lambda.call_now g) w
  = {| uncaught := uncaught w;
       invoked := invoked w ++ [scoped_lambda.func_ g] |}
  /\ invocations w (exec (scoped_lambda.call_now g) w) = 1%nat
  /\ exec (scoped_lambda.dtor (eval (scoped_lambda.call_now g) w)) w_exit
     = w_exit
  /\ invocations w
       (exec (g' <- scoped_lambda.call_now g ;; scoped_lambda.dtor g') w)
     = 1%nat.
Proof.
  intros _.
  assert (He : exec (scoped_lambda.call_now g) w
               = {| uncaught := uncaught w;
                    invoked := invoked w ++ [scoped_lambda.func_ g] |})
    by reflexivity.
  split; [exact He|]. split; [rewrite He; apply invocations_app|].
  split.
  - apply scoped_dtor_cancelled. reflexivity.
  - rewrite exec_bind, scoped_dtor_cancelled by reflexivity.
    rewrite He. apply invocations_app.
Qed.

Lemma call_now_then_destruction_witness :
  scoped_lambda.cancel_ (eval (on_scope_exit "cleanup"%string) quiet) = false
  /\ invocations quiet
       (exec (g' <- scoped_lambda.call_now
                      (eval (on_scope_exit "cleanup"%string) quiet) ;;
              scoped_lambda.dtor g') quiet)
     = 1%nat.
Proof.
  split; [reflexivity|].
  apply (call_now_then_destruction
           (eval (on_scope_exit "cleanup"%string) quiet) quiet quiet eq_refl).
Defined.

(** C9.  [call_now] does not consult the cancelled flag: on any guard,
    armed or cancelled, it invokes the action; after [cancel] it still
    invokes it, a second [call_now] invokes it a second time, and [n] calls
    invoke it [n] times.  Only the destructor is suppressed by the flag:
    after [cancel] it does nothing. *)
Theorem call_now_ignores_cancel_flag
  (FUNC : Type) (g : scoped_lambda.t FUNC) (w : world FUNC) :
  exec (scoped_lambda.call_now g) w
  = {| uncaught := uncaught w;
       invoked := invoked w ++ [scoped_lambda.func_ g] |}
  /\ exec (g' <- scoped_lambda.cancel g ;; scoped_lambda.call_now g') w
     = {| uncaught := uncaught w;
          invoked := invoked w ++ [scoped_lambda.func_ g] |}
  /\ invoked
       (exec (g' <- scoped_lambda.call_now g ;; scoped_lambda.call_now g') w)
     = invoked w ++ [scoped_lambda.func_ g; scoped_lambda.func_ g]
  /\ (forall n : nat,
        invoked (exec (scoped_lambda.run (repeat scoped_lambda.CallNow n) g) w)
        = invoked w ++ repeat (scoped_lambda.func_ g) n)
  /\ exec (g' <- scoped_lambda.cancel g ;; scoped_lambda.dtor g') w = w.
Proof.
  split; [reflexivity|]. split; [reflexivity|].
  split; [cbn; rewrite <- app_assoc; reflexivity|].
  split.
  - intros n. unfold exec. rewrite scoped_run_spec. cbn [snd invoked].
    f_equal. f_equal. unfold scoped_lambda.call_nows.
    induction n as [|n IH]; [reflexivity|]. simpl. now rewrite IH.
  - rewrite exec_bind. apply scoped_dtor_cancelled. reflexivity.
Qed.

(** ** Move construction (C7, C10) *)

(** C7.  Move construction of a guard of any variant leaves the program
    untouched; the source ends cancelled and its destruction invokes
    nothing; the destination holds the action and the source's previous
    cancelled flag (armed if the source was armed, cancelled if it was
    cancelled), and its destructor behaves as the source's would have: it
    invokes the action exactly when the source was armed and, for a
    conditional guard, the count test against the source's recorded count
    agrees with the variant. *)
Theorem move_transfers_guard (FUNC : Type) (w_move w : world FUNC) :
  (forall g1 : scoped_lambda.t FUNC,
     let g2 := fst (eval (scoped_lambda.move_ctor g1) w_move) in
     let g1' := snd (eval (scoped_lambda.move_ctor g1) w_move) in
     exec (scoped_lambda.move_ctor g1) w_move = w_move
     /\ scoped_lambda.cancel_ g1' = true
     /\ exec (scoped_lambda.dtor g1') w = w
     /\ scoped_lambda.func_ g2 = scoped_lambda.func_ g1
     /\ scoped_lambda.cancel_ g2 = scoped_lambda.cancel_ g1
     /\ scoped_lambda.dtor g2 w = scoped_lambda.dtor g1 w
     /\ invoked (exec (scoped_lambda.dtor g2) w)
        = invoked w ++ (if scoped_lambda.cancel_ g1 then []
                        else [scoped_lambda.func_ g1]))
  /\ (forall (CALL_ON_FAILURE : bool)
             (g1 : conditional_scoped_lambda.t FUNC CALL_ON_FAILURE),
        let g2 := fst (eval (conditional_scoped_lambda.move_ctor g1) w_move) in
        let g1' := snd (eval (conditional_scoped_lambda.move_ctor g1) w_move) in
        exec (conditional_scoped_lambda.move_ctor g1) w_move = w_move
        /\ conditional_scoped_lambda.cancel_ g1' = true
        /\ exec (conditional_scoped_lambda.dtor g1') w = w
        /\ conditional_scoped_lambda.func_ g2
           = conditional_scoped_lambda.func_ g1
        /\ conditional_scoped_lambda.cancel_ g2
           = conditional_scoped_lambda.cancel_ g1
        /\ conditional_scoped_lambda.dtor g2 w
           = conditional_scoped_lambda.dtor g1 w
        /\ conditional_scoped_lambda.uncaught_exception_count_ g2
           = conditional_scoped_lambda.uncaught_exception_count_ g1
        /\ invoked (exec (conditional_scoped_lambda.dtor g2) w)
           = invoked w ++ (if will_fire (uncaught w) g1
                           then [conditional_scoped_lambda.func_ g1]
                           else [])
        /\ will_fire (uncaught w) g2
           = negb (conditional_scoped_lambda.cancel_ g1)
             && Bool.eqb
                  (uncaught w
                   >? conditional_scoped_lambda.uncaught_exception_count_ g1)%Z
                  CALL_ON_FAILURE).
Proof.
  split.
  - intros [f c] g2 g1'. subst g2 g1'.
    repeat split; try reflexivity.
    rewrite scoped_dtor_spec. reflexivity.
  - intros c [f n b] g2 g1'. subst g2 g1'.
    repeat split; try reflexivity.
    rewrite conditional_dtor_spec. reflexivity.
Qed.

(** C10.  The move constructor of a conditional guard copies the recorded
    exception count unchanged; so when a guard is made with [c0] exceptions
    in flight, moved while [c_move] are in flight and destroyed while
    [c_exit] are, the destination fires or not by comparing [c_exit] with
    [c0], whatever [c_move] is, and the moved-from guard does not fire. *)
Theorem move_keeps_exception_count
  (FUNC : Type) (CALL_ON_FAILURE : bool)
  (g : conditional_scoped_lambda.t FUNC CALL_ON_FAILURE)
  (f : FUNC) (w_move w0 : world FUNC) (c_move c_exit : Z) :
  conditional_scoped_lambda.uncaught_exception_count_
    (fst (eval (conditional_scoped_lambda.move_ctor g) w_move))
  = conditional_scoped_lambda.uncaught_exception_count_ g
  /\ exec (moved_lifetime
             (conditional_scoped_lambda.ctor CALL_ON_FAILURE f) c_move c_exit)
          w0
     = {| uncaught := c_exit;
          invoked := invoked w0 ++
            (if Bool.eqb (c_exit >? uncaught w0)%Z CALL_ON_FAILURE
             then [f] else []) |}.
Proof.
  split; [reflexivity|].
  unfold moved_lifetime.
  rewrite exec_bind, exec_bind, exec_bind, exec_bind, exec_bind.
  rewrite conditional_dtor_cancelled by reflexivity.
  rewrite conditional_dtor_spec. reflexivity.
Qed.

(** A guard made at the moment of the move would decide differently: the
    snapshot of the moved guard is the older one. *)
Example moved_guard_uses_original_count :
  invoked (exec (moved_lifetime (on_scope_failure "undo"%string) 1 1) quiet)
  = ["undo"%string]
  /\ invoked (exec (set_uncaught 1 ;;
                    conditional_lifetime (on_scope_failure "undo"%string) [])
                   quiet)
     = [].
Proof. split; reflexivity. Qed.

(** ** The [ON_SCOPE_EXIT] macro (C8) *)

(** C8.  The guard declared by [ON_SCOPE_EXIT] with body [f] is the guard
    [on_scope_exit f] makes, made with the same effect on the program (none),
    and it behaves the same under every sequence of member calls followed
    by destruction. *)
Theorem ON_SCOPE_EXIT_is_on_scope_exit (FUNC : Type) (f : FUNC) :
  ON_SCOPE_EXIT f = on_scope_exit f
  /\ detail.operator_plus detail.ScopeExit_value f = on_scope_exit f
  /\ forall (ops : list scoped_lambda.op) (w : world FUNC),
       scoped_lifetime (ON_SCOPE_EXIT f) ops w
       = scoped_lifetime (on_scope_exit f) ops w.
Proof. repeat split. Qed.

(* ===================================================================== *)
(** * Further properties of the scope guards *)
(* ===================================================================== *)

(** ** What member calls cannot do *)

(** X1.  Cancellation of an unconditional guard is permanent: on a guard
    whose [cancel_] is set, no sequence of [cancel] and [call_now] calls
    clears the flag or replaces the action, and the destructor that follows
    invokes nothing; the only invocations are those of the [call_now]
    calls themselves. *)
Theorem scoped_cancel_is_permanent
  (FUNC : Type) (g : scoped_lambda.t FUNC) (ops : list scoped_lambda.op)
  (w w_exit : world FUNC) :
  scoped_lambda.cancel_ g = true ->
  scoped_lambda.cancel_ (eval (scoped_lambda.run ops g) w) = true
  /\ scoped_lambda.func_ (eval (scoped_lambda.run ops g) w)
     = scoped_lambda.func_ g
  /\ exec (scoped_lambda.dtor (eval (scoped_lambda.run ops g) w)) w_exit
     = w_exit
  /\ invoked (exec (g' <- scoped_lambda.run ops g ;; scoped_lambda.dtor g') w)
     = invoked w ++ repeat (scoped_lambda.func_ g) (scoped_lambda.call_nows ops).
Proof.
  intros Hc.
  assert (Hg : scoped_lambda.cancel_ (eval (scoped_lambda.run ops g) w) = true).
  { unfold eval. rewrite scoped_run_spec. cbn [fst scoped_lambda.cancel_].
    destruct ops; [exact Hc | reflexivity]. }
  split; [exact Hg|].
  split; [unfold eval; rewrite scoped_run_spec; reflexivity|].
  split; [apply scoped_dtor_cancelled; exact Hg|].
  rewrite exec_bind, (scoped_dtor_cancelled _ _ Hg).
  unfold exec. rewrite scoped_run_spec. reflexivity.
Qed.

Lemma scoped_cancel_is_permanent_witness :
  scoped_lambda.cancel_
    {| scoped_lambda.func_ := "cleanup"%string;
       scoped_lambda.cancel_ := true |} = true
  /\ invoked
       (exec (g' <- scoped_lambda.run
                      [scoped_lambda.CallNow; scoped_lambda.Cancel]
                      {| scoped_lambda.func_ := "cleanup"%string;
                         scoped_lambda.cancel_ := true |} ;;
              scoped_lambda.dtor g') quiet)
     = ["cleanup"%string].
Proof.
  split; [reflexivity|].
  apply (scoped_cancel_is_permanent
           {| scoped_lambda.func_ := "cleanup"%string;
              scoped_lambda.cancel_ := true |}
           [scoped_lambda.CallNow; scoped_lambda.Cancel] quiet quiet eq_refl).
Defined.

(** X2.  A conditional guard never invokes its action before it is
    destroyed: whatever [cancel] calls and changes of the number of
    exceptions in flight happen during its life, nothing is invoked, and
    the action and the recorded count stay what they were. *)
Theorem conditional_guard_is_passive
  (FUNC : Type) (CALL_ON_FAILURE : bool)
  (g : conditional_scoped_lambda.t FUNC CALL_ON_FAILURE)
  (ops : list conditional_scoped_lambda.op) (w : world FUNC) :
  invoked (exec (conditional_scoped_lambda.run ops g) w) = invoked w
  /\ conditional_scoped_lambda.func_
       (eval (conditional_scoped_lambda.run ops g) w)
     = conditional_scoped_lambda.func_ g
  /\ conditional_scoped_lambda.uncaught_exception_count_
       (eval (conditional_scoped_lambda.run ops g) w)
     = conditional_scoped_lambda.uncaught_exception_count_ g
  /\ conditional_scoped_lambda.cancel_
       (eval (conditional_scoped_lambda.run ops g) w)
     = conditional_scoped_lambda.cancel_ g
       || conditional_scoped_lambda.cancelled ops.
Proof.
  unfold exec, eval. rewrite conditional_run_spec. repeat split.
Qed.

(** X3.  Cancellation of a conditional guard is permanent and beats every
    exception count: once [cancel_] is set, or once [cancel] is among the
    events of its life, the destructor invokes nothing, however many
    exceptions are in flight at destruction. *)
Theorem conditional_cancel_is_permanent
  (FUNC : Type) (CALL_ON_FAILURE : bool)
  (g : conditional_scoped_lambda.t FUNC CALL_ON_FAILURE)
  (ops : list conditional_scoped_lambda.op) (w w_exit : world FUNC) :
  conditional_scoped_lambda.cancel_ g = true
  \/ conditional_scoped_lambda.cancelled ops = true ->
  exec (conditional_scoped_lambda.dtor
          (eval (conditional_scoped_lambda.run ops g) w)) w_exit
  = w_exit.
Proof.
  intros Hc. apply conditional_dtor_cancelled.
  unfold eval. rewrite conditional_run_spec.
  cbn [fst conditional_scoped_lambda.cancel_].
  destruct Hc as [Hc|Hc]; rewrite Hc; [reflexivity | apply orb_true_r].
Qed.

Lemma conditional_cancel_is_permanent_witness :
  (conditional_scoped_lambda.cancel_
     (eval (on_scope_failure "rollback"%string) quiet) = true
   \/ conditional_scoped_lambda.cancelled
        [conditional_scoped_lambda.Uncaught 1;
         conditional_scoped_lambda.Cancel;
         conditional_scoped_lambda.Uncaught 2] = true)
  /\ exec (conditional_scoped_lambda.dtor
             (eval (conditional_scoped_lambda.run
                      [conditional_scoped_lambda.Uncaught 1;
                       conditional_scoped_lambda.Cancel;
                       conditional_scoped_lambda.Uncaught 2]
                      (eval (on_scope_failure "rollback"%string) quiet))
                   quiet))
          {| uncaught := 2; invoked := [] |}
     = {| uncaught := 2; invoked := [] |}.
Proof.
  split; [right; reflexivity|].
  apply (conditional_cancel_is_permanent
           (eval (on_scope_failure "rollback"%string) quiet)
           [conditional_scoped_lambda.Uncaught 1;
            conditional_scoped_lambda.Cancel;
            conditional_scoped_lambda.Uncaught 2]
           quiet {| uncaught := 2; invoked := [] |}).
  right. reflexivity.
Defined.

(** ** Several guards *)

Section blocks_facts.
Variable FUNC : Type.

(** Destroying a list of guards invokes the actions of the armed ones, in
    the order of destruction. *)
Lemma destroy_all_spec (gs : list (scoped_lambda.t FUNC)) : forall w,
  exec (destroy_all gs) w
  = {| uncaught := uncaught w;
       invoked := invoked w ++ map (@scoped_lambda.func_ FUNC) (filter (@armed FUNC) gs) |}.
Proof.
  induction gs as [|g gs IH]; intros w.
  - cbn. rewrite app_nil_r. symmetry. apply world_eta.
  - cbn [destroy_all]. rewrite exec_bind, IH, scoped_dtor_spec.
    cbn [uncaught invoked filter].
    change (armed g) with (negb (scoped_lambda.cancel_ g)).
    destruct (scoped_lambda.cancel_ g); cbn [negb map].
    + rewrite app_nil_r. reflexivity.
    + rewrite <- app_assoc. reflexivity.
Qed.

Lemma declare_all_spec (decls : list (FUNC * bool)) : forall w,
  declare_all decls w
  = (map (fun d => {| scoped_lambda.func_ := fst d;
                      scoped_lambda.cancel_ := snd d |}) decls, w).
Proof.
  induction decls as [|d decls IH]; intros w; [reflexivity|].
  cbn [declare_all map]. unfold bind at 1 2 3.
  unfold ON_SCOPE_EXIT, detail.operator_plus, on_scope_exit, scoped_lambda.ctor.
  unfold ret at 1 2 3 4 5 6 7 8. cbn [fst snd].
  destruct d as [f c]; cbn [fst snd].
  destruct c; unfold scoped_lambda.cancel, ret; cbn [fst snd];
    rewrite IH; reflexivity.
Qed.

Lemma armed_declared (decls : list (FUNC * bool)) :
  map (@scoped_lambda.func_ FUNC)
    (filter (@armed FUNC)
       (map (fun d => {| scoped_lambda.func_ := fst d;
                         scoped_lambda.cancel_ := snd d |}) decls))
  = map fst (filter (fun d => negb (snd d)) decls).
Proof.
  induction decls as [|[f c] decls IH]; [reflexivity|].
  destruct c; cbn; rewrite <- IH; reflexivity.
Qed.

Lemma filter_permutation (A : Type) (p : A -> bool) (l l' : list A) :
  Permutation l l' -> Permutation (filter p l) (filter p l').
Proof.
  induction 1 as [|x l l' _ IH|x y l|l l' l'' _ IH1 _ IH2]; cbn.
  - constructor.
  - destruct (p x); [constructor|]; exact IH.
  - destruct (p x), (p y); try apply Permutation_refl. constructor.
  - now transitivity (filter p l').
Qed.

(** Moving a guard [n] times leaves [n] cancelled guards and one that is
    as the original was. *)
Lemma move_chain_spec (n : nat) : forall (g : scoped_lambda.t FUNC) w,
  move_chain n g w
  = (repeat {| scoped_lambda.func_ := scoped_lambda.func_ g;
               scoped_lambda.cancel_ := true |} n ++ [g], w).
Proof.
  induction n as [|n IH]; intros [f c] w; [reflexivity|].
  cbn [move_chain]. unfold bind at 1 2.
  unfold scoped_lambda.move_ctor, scoped_lambda.cancel, bind, ret at 1 2.
  cbn [fst snd scoped_lambda.func_ scoped_lambda.cancel_].
  rewrite IH. reflexivity.
Qed.

Lemma filter_armed_chain (n : nat) (g : scoped_lambda.t FUNC) :
  filter (@armed FUNC)
    (repeat {| scoped_lambda.func_ := scoped_lambda.func_ g;
               scoped_lambda.cancel_ := true |} n ++ [g])
  = filter (@armed FUNC) [g].
Proof.
  induction n as [|n IH]; [reflexivity|]. exact IH.
Qed.

End blocks_facts.

(** X4.  A block that declares several unconditional guards (each with
    [ON_SCOPE_EXIT], some of them cancelled afterwards) and is left invokes
    the actions of exactly the guards that were not cancelled, each once,
    in the reverse order of their declaration. *)
Theorem block_runs_actions_in_reverse
  (FUNC : Type) (decls : list (FUNC * bool)) (w : world FUNC) :
  exec (block decls) w
  = {| uncaught := uncaught w;
       invoked := invoked w
                  ++ rev (map fst (filter (fun d => negb (snd d)) decls)) |}.
Proof.
  unfold block. rewrite exec_bind. unfold eval, exec at 2.
  rewrite declare_all_spec. cbn [fst snd]. rewrite destroy_all_spec.
  rewrite filter_rev, map_rev, armed_declared. reflexivity.
Qed.

(** X5.  However often an unconditional guard is moved, and in whatever
    order the guards of the chain are then destroyed, together they do
    exactly what the destruction of the original guard alone would have
    done: its action is invoked once if it was armed and not at all if it
    was cancelled.  The moves themselves invoke nothing. *)
Theorem move_chain_fires_like_original
  (FUNC : Type) (n : nat) (g : scoped_lambda.t FUNC)
  (gs : list (scoped_lambda.t FUNC)) (w w_exit : world FUNC) :
  Permutation (eval (move_chain n g) w) gs ->
  exec (move_chain n g) w = w
  /\ List.length gs = S n
  /\ exec (destroy_all gs) w_exit = exec (scoped_lambda.dtor g) w_exit
  /\ exec (destroy_all gs) w_exit
     = {| uncaught := uncaught w_exit;
          invoked := invoked w_exit
                     ++ (if scoped_lambda.cancel_ g then []
                         else [scoped_lambda.func_ g]) |}
  /\ invocations w_exit (exec (destroy_all gs) w_exit)
     = (if scoped_lambda.cancel_ g then 0 else 1)%nat.
Proof.
  unfold eval, exec at 1. rewrite move_chain_spec. cbn [fst snd].
  intros Hp. split; [reflexivity|]. split.
  - rewrite <- (Permutation_length Hp), length_app, repeat_length.
    cbn. lia.
  - rewrite destroy_all_spec, scoped_dtor_spec, invocations_app.
    apply (filter_permutation (@armed FUNC)) in Hp.
    rewrite filter_armed_chain in Hp. cbn [filter] in Hp.
    change (armed g) with (negb (scoped_lambda.cancel_ g)) in Hp.
    destruct (scoped_lambda.cancel_ g); cbn [negb] in Hp.
    + apply Permutation_nil in Hp. rewrite Hp. repeat split.
    + apply Permutation_length_1_inv in Hp. rewrite Hp. repeat split.
Qed.

Lemma move_chain_fires_like_original_witness :
  Permutation
    (eval (move_chain 2 (eval (on_scope_exit "cleanup"%string) quiet)) quiet)
    (rev (eval (move_chain 2 (eval (on_scope_exit "cleanup"%string) quiet))
               quiet))
  /\ exec (destroy_all
             (rev (eval (move_chain 2
                           (eval (on_scope_exit "cleanup"%string) quiet))
                        quiet))) quiet
     = exec (scoped_lambda.dtor (eval (on_scope_exit "cleanup"%string) quiet))
            quiet.
Proof.
  split; [apply Permutation_rev|].
  apply (move_chain_fires_like_original
           2 (eval (on_scope_exit "cleanup"%string) quiet)
           quiet quiet (Permutation_rev _)).
Defined.

Section conditional_blocks_facts.
Variable FUNC : Type.
Variable CALL_ON_FAILURE : bool.

Lemma conditional_destroy_all_spec
  (gs : list (conditional_scoped_lambda.t FUNC CALL_ON_FAILURE)) : forall w,
  exec (conditional_destroy_all gs) w
  = {| uncaught := uncaught w;
       invoked := invoked w
         ++ map (@conditional_scoped_lambda.func_ FUNC CALL_ON_FAILURE)
              (filter (will_fire (uncaught w)) gs) |}.
Proof.
  induction gs as [|g gs IH]; intros w.
  - cbn. rewrite app_nil_r. symmetry. apply world_eta.
  - cbn [conditional_destroy_all]. rewrite exec_bind, IH, conditional_dtor_spec.
    cbn [uncaught invoked filter].
    change (will_fire (uncaught w) g)
      with (negb (conditional_scoped_lambda.cancel_ g)
            && Bool.eqb
                 (uncaught w
                  >? conditional_scoped_lambda.uncaught_exception_count_ g)%Z
                 CALL_ON_FAILURE).
    destruct (_ && _); cbn [map].
    + rewrite <- app_assoc. reflexivity.
    + rewrite app_nil_r. reflexivity.
Qed.

Lemma conditional_move_chain_spec (n : nat) :
  forall (g : conditional_scoped_lambda.t FUNC CALL_ON_FAILURE) w,
  conditional_move_chain n g w
  = (repeat
       {| conditional_scoped_lambda.func_ := conditional_scoped_lambda.func_ g;
          conditional_scoped_lambda.uncaught_exception_count_ :=
            conditional_scoped_lambda.uncaught_exception_count_ g;
          conditional_scoped_lambda.cancel_ := true |} n ++ [g], w).
Proof.
  induction n as [|n IH]; intros [f c b] w; [reflexivity|].
  cbn [conditional_move_chain]. unfold bind at 1 2.
  unfold conditional_scoped_lambda.move_ctor, conditional_scoped_lambda.cancel,
    bind, ret at 1 2.
  cbn [fst snd conditional_scoped_lambda.func_
       conditional_scoped_lambda.uncaught_exception_count_
       conditional_scoped_lambda.cancel_].
  rewrite IH. reflexivity.
Qed.

Lemma filter_will_fire_chain (c : Z) (n : nat)
  (g : conditional_scoped_lambda.t FUNC CALL_ON_FAILURE) :
  filter (will_fire c)
    (repeat
       {| conditional_scoped_lambda.func_ := conditional_scoped_lambda.func_ g;
          conditional_scoped_lambda.uncaught_exception_count_ :=
            conditional_scoped_lambda.uncaught_exception_count_ g;
          conditional_scoped_lambda.cancel_ := true |} n ++ [g])
  = filter (will_fire c) [g].
Proof.
  induction n as [|n IH]; [reflexivity|]. exact IH.
Qed.

End conditional_blocks_facts.

(** X6.  However often a failure-only or success-only guard is moved, and
    in whatever order the guards of the chain are destroyed, together they
    do exactly what the destruction of the original guard would have done
    in that program state: the decision is taken once, against the count
    the original recorded. *)
Theorem conditional_move_chain_fires_like_original
  (FUNC : Type) (CALL_ON_FAILURE : bool) (n : nat)
  (g : conditional_scoped_lambda.t FUNC CALL_ON_FAILURE)
  (gs : list (conditional_scoped_lambda.t FUNC CALL_ON_FAILURE))
  (w w_exit : world FUNC) :
  Permutation (eval (conditional_move_chain n g) w) gs ->
  exec (conditional_move_chain n g) w = w
  /\ Forall (fun g' =>
               conditional_scoped_lambda.uncaught_exception_count_ g'
               = conditional_scoped_lambda.uncaught_exception_count_ g) gs
  /\ exec (conditional_destroy_all gs) w_exit
     = exec (conditional_scoped_lambda.dtor g) w_exit.
Proof.
  unfold eval, exec at 1. rewrite conditional_move_chain_spec. cbn [fst snd].
  intros Hp. split; [reflexivity|]. split.
  - apply (Permutation_Forall Hp). apply Forall_app. split.
    + apply Forall_forall. intros g' Hin. apply repeat_spec in Hin.
      rewrite Hin. reflexivity.
    + constructor; [reflexivity | constructor].
  - rewrite conditional_destroy_all_spec, conditional_dtor_spec.
    apply (filter_permutation (will_fire (uncaught w_exit))) in Hp.
    rewrite filter_will_fire_chain in Hp. cbn [filter] in Hp.
    change (will_fire (uncaught w_exit) g)
      with (negb (conditional_scoped_lambda.cancel_ g)
            && Bool.eqb
                 (uncaught w_exit
                  >? conditional_scoped_lambda.uncaught_exception_count_ g)%Z
                 CALL_ON_FAILURE) in Hp.
    destruct (_ && _).
    + apply Permutation_length_1_inv in Hp. rewrite Hp. reflexivity.
    + apply Permutation_nil in Hp. rewrite Hp. reflexivity.
Qed.

Lemma conditional_move_chain_fires_like_original_witness :
  Permutation
    (eval (conditional_move_chain 2
             (eval (on_scope_failure "rollback"%string) quiet)) quiet)
    (rev (eval (conditional_move_chain 2
                  (eval (on_scope_failure "rollback"%string) quiet)) quiet))
  /\ exec (conditional_destroy_all
             (rev (eval (conditional_move_chain 2
                           (eval (on_scope_failure "rollback"%string) quiet))
                        quiet)))
          {| uncaught := 1; invoked := [] |}
     = exec (conditional_scoped_lambda.dtor
               (eval (on_scope_failure "rollback"%string) quiet))
            {| uncaught := 1; invoked := [] |}.
Proof.
  split; [apply Permutation_rev|].
  apply (conditional_move_chain_fires_like_original
           2 (eval (on_scope_failure "rollback"%string) quiet)
           quiet {| uncaught := 1; invoked := [] |} (Permutation_rev _)).
Defined.

(** ** What the exception counts are used for *)

Lemma cancelled_shift (k : Z) (ops : list conditional_scoped_lambda.op) :
  conditional_scoped_lambda.cancelled (map (shift_event k) ops)
  = conditional_scoped_lambda.cancelled ops.
Proof.
  unfold conditional_scoped_lambda.cancelled.
  induction ops as [|[|n] ops IH]; cbn; [reflexivity | reflexivity | exact IH].
Qed.

Lemma uncaught_after_shift (k : Z) (ops : list conditional_scoped_lambda.op) :
  forall c : Z,
  conditional_scoped_lambda.uncaught_after (map (shift_event k) ops) (c + k)
  = (conditional_scoped_lambda.uncaught_after ops c + k)%Z.
Proof.
  unfold conditional_scoped_lambda.uncaught_after.
  induction ops as [|[|n] ops IH]; intros c; cbn; [reflexivity | apply IH..].
Qed.

Lemma gtb_shift (a b k : Z) : (a + k >? b + k)%Z = (a >? b)%Z.
Proof.
  destruct (Z.gtb_spec (a + k) (b + k)), (Z.gtb_spec a b);
    try reflexivity; lia.
Qed.

(** X7.  Conditional guards nest: only the change of the number of
    exceptions in flight during the guard's life matters.  If [k] more
    exceptions are in flight throughout (the guard lives in code that runs
    while other exceptions are being unwound), the guard invokes its action
    in exactly the same cases. *)
Theorem conditional_guard_ignores_outer_exceptions
  (FUNC : Type) (CALL_ON_FAILURE : bool) (f : FUNC) (k : Z)
  (ops : list conditional_scoped_lambda.op) (w : world FUNC) :
  invoked
    (exec (conditional_lifetime
             (conditional_scoped_lambda.ctor CALL_ON_FAILURE f)
             (map (shift_event k) ops))
          {| uncaught := uncaught w + k; invoked := invoked w |})
  = invoked
      (exec (conditional_lifetime
               (conditional_scoped_lambda.ctor CALL_ON_FAILURE f) ops) w).
Proof.
  rewrite !conditional_lifetime_spec. cbn [uncaught invoked].
  rewrite cancelled_shift, uncaught_after_shift, gtb_shift. reflexivity.
Qed.

(** X8.  Only the number of exceptions in flight at destruction counts,
    not how it got there: two lives of a conditional guard that agree on
    whether [cancel] was called and on the final count end the same way.
    So an exception thrown and caught again inside the scope is as good as
    none. *)
Theorem conditional_guard_sees_final_count_only
  (FUNC : Type) (CALL_ON_FAILURE : bool) (f : FUNC)
  (ops ops' : list conditional_scoped_lambda.op) (w : world FUNC) :
  conditional_scoped_lambda.cancelled ops
  = conditional_scoped_lambda.cancelled ops' ->
  conditional_scoped_lambda.uncaught_after ops (uncaught w)
  = conditional_scoped_lambda.uncaught_after ops' (uncaught w) ->
  exec (conditional_lifetime
          (conditional_scoped_lambda.ctor CALL_ON_FAILURE f) ops) w
  = exec (conditional_lifetime
            (conditional_scoped_lambda.ctor CALL_ON_FAILURE f) ops') w.
Proof.
  intros Hc Hu. rewrite !conditional_lifetime_spec, Hc, Hu. reflexivity.
Qed.

Lemma conditional_guard_sees_final_count_only_witness :
  conditional_scoped_lambda.cancelled
    [conditional_scoped_lambda.Uncaught 1; conditional_scoped_lambda.Uncaught 0]
  = conditional_scoped_lambda.cancelled []
  /\ conditional_scoped_lambda.uncaught_after
       [conditional_scoped_lambda.Uncaught 1;
        conditional_scoped_lambda.Uncaught 0] (uncaught (@quiet string))
     = conditional_scoped_lambda.uncaught_after [] (uncaught (@quiet string))
  /\ exec (conditional_lifetime (on_scope_failure "rollback"%string)
             [conditional_scoped_lambda.Uncaught 1;
              conditional_scoped_lambda.Uncaught 0]) quiet
     = exec (conditional_lifetime (on_scope_failure "rollback"%string) [])
            quiet.
Proof.
  split; [reflexivity|]. split; [reflexivity|].
  apply (conditional_guard_sees_final_count_only
           true "rollback"%string
           [conditional_scoped_lambda.Uncaught 1;
            conditional_scoped_lambda.Uncaught 0] [] quiet
           eq_refl eq_refl).
Defined.

(** ** The name of the guard variable *)

Lemma decimal_injective (m n : nat) :
  Preprocessor.decimal m = Preprocessor.decimal n -> m = n.
Proof.
  unfold Preprocessor.decimal. intros H.
  apply (f_equal NilEmpty.uint_of_string) in H.
  rewrite !NilEmpty.usu in H. injection H as H.
  apply (f_equal Nat.of_uint) in H.
  now rewrite !DecimalNat.Unsigned.of_to in H.
Qed.

(** X9.  [ON_SCOPE_EXIT] on source line [n] declares the variable
    [exitBlock_<n>]: two uses declare the same variable exactly when they
    are on the same line, so guards declared on pairwise different lines of
    one block never clash.  The two-level macro is what makes this work:
    pasting through [__SCOPE_EXIT_CONCATENATE_IMPL] directly gives the one
    name [exitBlock___LINE__] on every line. *)
Theorem ON_SCOPE_EXIT_variable_per_line (l1 l2 : nat) (lines : list nat) :
  Preprocessor.ON_SCOPE_EXIT_variable l1
  = Preprocessor.Identifier ("exitBlock_" ++ Preprocessor.decimal l1)
  /\ (Preprocessor.ON_SCOPE_EXIT_variable l1
      = Preprocessor.ON_SCOPE_EXIT_variable l2 <-> l1 = l2)
  /\ (NoDup (map Preprocessor.ON_SCOPE_EXIT_variable lines) <-> NoDup lines)
  /\ Preprocessor.__SCOPE_EXIT_CONCATENATE_IMPL
       (Preprocessor.Identifier "exitBlock_") Preprocessor.Line
     = Preprocessor.Identifier "exitBlock___LINE__".
Proof.
  assert (Hinj : forall a b,
             Preprocessor.ON_SCOPE_EXIT_variable a
             = Preprocessor.ON_SCOPE_EXIT_variable b -> a = b).
  { intros a b H. cbv [Preprocessor.ON_SCOPE_EXIT_variable
                       Preprocessor.__SCOPE_EXIT_CONCATENATE
                       Preprocessor.__SCOPE_EXIT_CONCATENATE_IMPL
                       Preprocessor.expand Preprocessor.spelling] in H.
    cbn [String.append] in H. injection H as H.
    now apply decimal_injective. }
  split; [reflexivity|]. split; [|split; [|reflexivity]].
  - split; [apply Hinj | intros ->; reflexivity].
  - split.
    + apply NoDup_map_inv.
    + apply Injective_map_NoDup. exact Hinj.
Qed.

Example guard_variable_on_line_120 :
  Preprocessor.ON_SCOPE_EXIT_variable 120
  = Preprocessor.Identifier "exitBlock_120".
Proof. reflexivity. Qed.

(** ** Closures that may throw *)

Section Throwing_facts.
Variable FUNC : Type.
Variable FUNC_noexcept : bool.
Variable throws : FUNC -> bool.

Lemma throwing_call_returns (f : FUNC) (w : world FUNC) :
  throws f = false ->
  Throwing.call FUNC_noexcept throws f w = (Throwing.Returned tt, exec (call f) w).
Proof. intros H. unfold Throwing.call. rewrite H. reflexivity. Qed.

Lemma throwing_call_invoked (f : FUNC) (w : world FUNC) :
  invoked (snd (Throwing.call FUNC_noexcept throws f w)) = invoked w ++ [f].
Proof.
  unfold Throwing.call. destruct (throws f), FUNC_noexcept; reflexivity.
Qed.

Lemma throwing_call_outcome (f : FUNC) (w : world FUNC) :
  fst (Throwing.call FUNC_noexcept throws f w)
  = if throws f
    then if FUNC_noexcept then Throwing.Terminated else Throwing.Thrown
    else Throwing.Returned tt.
Proof.
  unfold Throwing.call. destruct (throws f), FUNC_noexcept; reflexivity.
Qed.

End Throwing_facts.

(** X10.  When no closure throws, the members modelled with exceptions do
    what the members modelled without them do: each returns normally and
    leaves the guard and the program as [scoped_lambda.call_now],
    [scoped_lambda.dtor] and [conditional_scoped_lambda.dtor] say. *)
Theorem throwing_members_agree_when_nothing_throws
  (FUNC : Type) (FUNC_noexcept : bool) (throws : FUNC -> bool)
  (CALL_ON_FAILURE : bool) (g : scoped_lambda.t FUNC)
  (gc : conditional_scoped_lambda.t FUNC CALL_ON_FAILURE) (w : world FUNC) :
  (forall f : FUNC, throws f = false) ->
  Throwing.call_now FUNC_noexcept throws g w
  = (eval (scoped_lambda.call_now g) w,
     (Throwing.Returned tt, exec (scoped_lambda.call_now g) w))
  /\ Throwing.dtor FUNC_noexcept throws g w
     = (Throwing.Returned tt, exec (scoped_lambda.dtor g) w)
  /\ Throwing.conditional_dtor FUNC_noexcept throws gc w
     = (Throwing.Returned tt, exec (conditional_scoped_lambda.dtor gc) w).
Proof.
  intros Hno. repeat split.
  - unfold Throwing.call_now. rewrite throwing_call_returns by apply Hno.
    reflexivity.
  - unfold Throwing.dtor, Throwing.noexcept, scoped_lambda.dtor.
    destruct (scoped_lambda.cancel_ g); cbn [negb]; [reflexivity|].
    rewrite throwing_call_returns by apply Hno. reflexivity.
  - unfold Throwing.conditional_dtor, Throwing.noexcept.
    unfold conditional_scoped_lambda.dtor.
    destruct (conditional_scoped_lambda.cancel_ gc); cbn [negb];
      [destruct (CALL_ON_FAILURE || FUNC_noexcept); reflexivity|].
    rewrite exec_bind.
    change (exec (conditional_scoped_lambda.is_unwinding_due_to_exception gc) w)
      with w.
    destruct (Bool.eqb _ CALL_ON_FAILURE).
    + rewrite throwing_call_returns by apply Hno.
      destruct (CALL_ON_FAILURE || FUNC_noexcept); reflexivity.
    + destruct (CALL_ON_FAILURE || FUNC_noexcept); reflexivity.
Qed.

Lemma throwing_members_agree_when_nothing_throws_witness :
  (forall f : string, (fun _ : string => false) f = false)
  /\ Throwing.dtor false (fun _ : string => false)
       (eval (on_scope_exit "cleanup"%string) quiet) quiet
     = (Throwing.Returned tt,
        exec (scoped_lambda.dtor (eval (on_scope_exit "cleanup"%string) quiet))
             quiet).
Proof.
  split; [intros f; reflexivity|].
  apply (throwing_members_agree_when_nothing_throws
           false (fun _ : string => false)
           (eval (on_scope_exit "cleanup"%string) quiet)
           (eval (on_scope_failure "rollback"%string) quiet) quiet
           (fun _ => eq_refl)).
Defined.

(** X11.  [call_now] sets [cancel_] before it calls the action.  So
    however the action ends (it returns, it throws out of [call_now], or
    the program terminates) the action has been invoked once and the guard
    is left cancelled: its destructor, run later (for instance while the
    thrown exception unwinds the scope), invokes nothing and returns. *)
Theorem call_now_cancels_before_calling
  (FUNC : Type) (FUNC_noexcept : bool) (throws : FUNC -> bool)
  (g : scoped_lambda.t FUNC) (w w_exit : world FUNC) :
  let r := Throwing.call_now FUNC_noexcept throws g w in
  scoped_lambda.cancel_ (fst r) = true
  /\ scoped_lambda.func_ (fst r) = scoped_lambda.func_ g
  /\ invoked (snd (snd r)) = invoked w ++ [scoped_lambda.func_ g]
  /\ fst (snd r)
     = (if throws (scoped_lambda.func_ g)
        then if FUNC_noexcept then Throwing.Terminated else Throwing.Thrown
        else Throwing.Returned tt)
  /\ Throwing.dtor FUNC_noexcept throws (fst r) w_exit
     = (Throwing.Returned tt, w_exit).
Proof.
  cbv zeta. unfold Throwing.call_now. cbn [fst snd scoped_lambda.func_].
  split; [reflexivity|]. split; [reflexivity|].
  split; [apply throwing_call_invoked|].
  split; [apply throwing_call_outcome|]. reflexivity.
Qed.

Example call_now_of_throwing_action :
  Throwing.call_now false boom_throws
    (eval (on_scope_exit "boom"%string) quiet) quiet
  = ({| scoped_lambda.func_ := "boom"%string; scoped_lambda.cancel_ := true |},
     (Throwing.Thrown, {| uncaught := 1; invoked := ["boom"%string] |})).
Proof. reflexivity. Qed.


(** X13.  The destructor of a success-only guard is [noexcept] only if
    the action's call is: when the call may throw and the action does
    throw at a normal scope exit, the exception leaves the destructor and
    is then one more exception in flight; the program does not terminate.
    The action has been invoked once. *)
Theorem success_guard_lets_exception_out
  (FUNC : Type) (throws : FUNC -> bool)
  (gs : conditional_scoped_lambda.t FUNC false) (w : world FUNC) :
  will_fire (uncaught w) gs = true ->
  throws (conditional_scoped_lambda.func_ gs) = true ->
  Throwing.conditional_dtor false throws gs w
  = (Throwing.Thrown,
     {| uncaught := uncaught w + 1;
        invoked := invoked w ++ [conditional_scoped_lambda.func_ gs] |})
  /\ Throwing.conditional_dtor true throws gs w
     = (Throwing.Terminated,
        {| uncaught := uncaught w;
           invoked := invoked w ++ [conditional_scoped_lambda.func_ gs] |}).
Proof.
  unfold will_fire. intros Hf Ht.
  apply andb_true_iff in Hf. destruct Hf as [Hc He].
  unfold Throwing.conditional_dtor, Throwing.noexcept, Throwing.call, eval.
  cbn [orb fst conditional_scoped_lambda.is_unwinding_due_to_exception
       bind uncaught_exceptions ret snd].
  rewrite Hc, He, Ht. split; reflexivity.
Qed.

Lemma success_guard_lets_exception_out_witness :
  will_fire (uncaught (@quiet string))
    (eval (on_scope_success "boom"%string) quiet) = true
  /\ boom_throws
       (conditional_scoped_lambda.func_
          (eval (on_scope_success "boom"%string) quiet)) = true
  /\ Throwing.conditional_dtor false boom_throws
       (eval (on_scope_success "boom"%string) quiet) quiet
     = (Throwing.Thrown, {| uncaught := 1; invoked := ["boom"%string] |}).
Proof.
  split; [reflexivity|]. split; [reflexivity|].
  apply (success_guard_lets_exception_out
           boom_throws (eval (on_scope_success "boom"%string) quiet) quiet
           eq_refl eq_refl).
Defined.

(** ** The unconditional guard and exceptions *)

(** X14.  An unconditional guard does not look at exceptions: made with
    [c0] exceptions in flight and destroyed uncancelled with [c1] in
    flight, it invokes its action exactly once whatever [c0] and [c1] are,
    that is on normal exit and on unwinding alike, where a failure-only and
    a success-only guard made and destroyed alongside share that one
    invocation between them. *)
Theorem on_scope_exit_fires_on_every_path
  (FUNC : Type) (f : FUNC) (c0 c1 : Z) (l : list FUNC) :
  let w0 := {| uncaught := c0; invoked := l |} in
  exec (g <- on_scope_exit f ;; set_uncaught c1 ;; scoped_lambda.dtor g) w0
  = {| uncaught := c1; invoked := l ++ [f] |}
  /\ (invocations w0
        (exec (conditional_lifetime (on_scope_failure f)
                 [conditional_scoped_lambda.Uncaught c1]) w0)
      + invocations w0
          (exec (conditional_lifetime (on_scope_success f)
                   [conditional_scoped_lambda.Uncaught c1]) w0)
      = 1)%nat.
Proof.
  cbv zeta. split; [reflexivity|].
  unfold on_scope_failure, on_scope_success.
  rewrite !conditional_lifetime_spec, !invocations_app.
  cbn [conditional_scoped_lambda.cancelled existsb
       conditional_scoped_lambda.is_cancel negb orb andb
       conditional_scoped_lambda.uncaught_after fold_left uncaught].
  destruct (c1 >? c0)%Z; reflexivity.
Qed.
